(** * ruckig: blocked durations, recorded profiles and the error type

    A shallow embedding of [include/ruckig/steps.hpp] and
    [include/ruckig/error.hpp].

    - A C++ [double] is an IEEE-754 binary64 value: Rocq's primitive
      [float], with [<], [+], [-] the primitive operations (so NaN,
      signed zeros and infinities behave as in the program).
    - [std::array<T, n>] is [vec T n]; an access through a [size_t]
      index that is not below [n] has no defined behaviour and is
      reported as [Undefined].
    - [std::optional<T>] is [option T].
    - A [size_t] counter is a [nat]: the only arithmetic on it is the
      increment in [add_profile], which is reached below 6 only.
    - A member function that updates [*this] or a reference argument
      returns the new value. *)

From Stdlib Require Import ZArith Floats String Ascii.
From stdpp Require Import base decidable option list vector fin.

Abbreviation double := PrimFloat.float.

(** [x == x]: every value but NaN. *)
Definition is_number (x : double) : bool := (x =? x)%float.

(** The values, in the specification format of floats, that no positive
    value is below: zeros, negative values and NaN. *)
Definition nonpos (f : spec_float) : Prop :=
  match f with
  | S754_zero _ | S754_nan => True
  | S754_infinity s | S754_finite s _ _ => s = true
  end.

(** ** error.hpp *)

(** The line feed character that starts the message tag. *)
Definition LF : ascii := ascii_of_nat 10.

(** The byte that ends a C string. *)
Definition NUL : ascii := ascii_of_nat 0.

(** [std::string::c_str()] read as a C string: the bytes before the first
    NUL byte. *)
Fixpoint c_str (s : string) : string :=
  match s with
  | EmptyString => EmptyString
  | String c s' => if Ascii.eqb c NUL then EmptyString else String c (c_str s')
  end.

(** No byte of [s] is NUL. *)
Fixpoint nul_free (s : string) : bool :=
  match s with
  | EmptyString => true
  | String c s' => negb (Ascii.eqb c NUL) && nul_free s'
  end.

(** [struct RuckigError : std::runtime_error]; [message] is the
    [std::string] the base class was constructed with, every byte of it. *)
Record RuckigError : Type := mkRuckigError { message : string }.

(** [const char* std::runtime_error::what()], the only view the program
    has of the message: a NUL-terminated string. *)
Definition what (e : RuckigError) : string := c_str (message e).

(** [explicit RuckigError(const std::string& message)] *)
Definition RuckigError_new (message : string) : RuckigError :=
  mkRuckigError (String LF "[ruckig] " ++ message)%string.

(** ** Outcomes of a call *)

Inductive outcome (A : Type) : Type :=
  | Returns (x : A)            (* the call completes with [x] *)
  | Throws (e : RuckigError)   (* a [RuckigError] propagates *)
  | Undefined.                 (* out-of-range array access *)
Arguments Returns {A} x.
Arguments Throws {A} e.
Arguments Undefined {A}.

(** ** std::array accessed through a [size_t] *)

Definition array_get {A : Type} {n : nat} (arr : vec A n) (i : nat) : option A :=
  vec_to_list arr !! i.

Definition array_set {A : Type} {n : nat} (arr : vec A n) (i : nat) (x : A)
  : option (vec A n) :=
  match decide (i < n) with
  | left Hi => Some (vinsert (nat_to_fin Hi) x arr)
  | right _ => None
  end.

(** ** profile.hpp *)

Module Profile.

(** Modelled from the spec: the eight limit classifications. *)
Inductive Limits : Type :=
  | NONE | ACC0 | ACC1 | ACC0_ACC1 | VEL | ACC0_VEL | ACC1_VEL | ACC0_ACC1_VEL.

(** Modelled from the spec: a single-excursion or a double-excursion
    approach to a plateau. *)
Inductive Teeth : Type := SINGLE_EXCURSION | DOUBLE_EXCURSION.

(** [Profile::Direction], of which steps.hpp names [UP] and [DOWN]. *)
Inductive Direction : Type := UP | DOWN.

(** Modelled from the spec: [ruckig/profile.hpp] is not among the
    sources.  The data model gives a profile seven phase durations and
    their cumulative sums, the end state, the limit classification, the
    teeth and direction tags and an optional brake pre-phase of at most
    two (duration, jerk) pairs; steps.hpp reads [t_sum[6]] and
    [t_brake] and writes [direction], and names [teeth]. *)
Record Profile : Type := mk {
  t : vec double 7;
  t_sum : vec double 7;
  pf : double;
  vf : double;
  af : double;
  limits : Limits;
  teeth : Teeth;
  direction : Direction;
  t_brake : option double;
  t_brakes : vec double 2;
  j_brakes : vec double 2
}.

(** [q] is [p] field by field, but for the direction, which is [d]. *)
Definition tagged (p : Profile) (d : Direction) (q : Profile) : Prop :=
  t q = t p /\ t_sum q = t_sum p
  /\ pf q = pf p /\ vf q = vf p /\ af q = af p
  /\ limits q = limits p /\ teeth q = teeth p
  /\ t_brake q = t_brake p
  /\ t_brakes q = t_brakes p /\ j_brakes q = j_brakes p
  /\ direction q = d.

(** The assignment [profile.direction = d]. *)
Definition set_direction (p : Profile) (d : Direction) : Profile :=
  mk (t p) (t_sum p) (pf p) (vf p) (af p) (limits p) (teeth p) d
     (t_brake p) (t_brakes p) (j_brakes p).

End Profile.

(** ** struct Block *)

Module Block.

(** [struct Interval { double left, right; Profile profile; }] *)
Record Interval : Type := mkInterval {
  left : double;
  right : double;
  profile : Profile.Profile
}.

Record Block : Type := mk {
  t_min : double;
  p_min : Profile.Profile;
  a : option Interval;
  b : option Interval
}.

(** [explicit Block(const Profile& p_min)]: [a] and [b] are
    default-initialised, that is, empty. *)
Definition new (p_min : Profile.Profile) : Block :=
  mk (Profile.t_sum p_min !!! 6%fin + default 0 (Profile.t_brake p_min))%float
     p_min None None.

(** [t] lies strictly between the endpoints of [i]. *)
Definition strictly_inside (i : Interval) (t : double) : Prop :=
  (left i <? t)%float = true /\ (t <? right i)%float = true.

(** [a && a->left < t && t < a->right] *)
Definition inside (i : option Interval) (t : double) : bool :=
  match i with
  | Some i => (left i <? t)%float && (t <? right i)%float
  | None => false
  end.

(** [bool is_blocked(double t) const] *)
Definition is_blocked (self : Block) (t : double) : bool :=
  (t <? t_min self)%float || inside (a self) t || inside (b self) t.

End Block.

(** ** class Brake *)

Module Brake.

(** [static constexpr double eps {2e-14}]: the binary64 value nearest
    to 2e-14, which is what the literal denotes. *)
Definition eps : double := 0x1.6849b86a12b9bp-46%float.

(** The two output arrays [t_brake] and [j_brake]. *)
Record Trajectory : Type := mk {
  t_brake : vec double 2;
  j_brake : vec double 2
}.

(** No braking: both segments have zero duration and zero jerk. *)
Definition none : Trajectory := mk [# 0; 0]%float [# 0; 0]%float.

(** [x] exceeds [bound] by more than the tolerance. *)
Definition beyond (x bound : double) : bool := (eps <? x - bound)%float.

Section Body.

(** The two private solvers are declared in steps.hpp and defined
    elsewhere; they receive the output arrays by reference. *)
Variable acceleration_brake velocity_brake :
  double -> double -> double -> double -> double -> Trajectory -> Trajectory.

(** Modelled from the spec: the body of [Brake::get_brake_trajectory]
    is not among the sources.  Braking is triggered only when [a0] or
    [v0] lies outside its range beyond the tolerance [eps]: the
    acceleration case is examined first, the velocity case only with
    the acceleration in bound, the lower bounds symmetrically to the
    upper ones; otherwise both segments stay zero. *)
Definition get_brake_trajectory (v0 a0 vMax vMin aMax jMax : double)
  : Trajectory :=
  if beyond a0 aMax then
    acceleration_brake v0 a0 vMax aMax jMax none
  else if beyond (- aMax)%float a0 then
    acceleration_brake v0 a0 vMin (- aMax)%float (- jMax)%float none
  else if beyond v0 vMax then
    velocity_brake v0 a0 vMax aMax jMax none
  else if beyond vMin v0 then
    velocity_brake v0 a0 vMin (- aMax)%float (- jMax)%float none
  else none.

End Body.

End Brake.

(** ** class Step1 *)

Module Step1.

Import Profile Block.

Record Boundary : Type := mkBoundary {
  p0 : double; v0 : double; a0 : double;
  pf : double; vf : double; af : double
}.

Record Bounds : Type := mkBounds {
  vMax : double; vMin : double; aMax : double; jMax : double
}.

(** The pre-calculated expressions. *)
Record Precalc : Type := mkPrecalc {
  pd : double;
  v0_v0 : double; vf_vf : double;
  a0_a0 : double; a0_p3 : double; a0_p4 : double; a0_p5 : double; a0_p6 : double;
  af_af : double; af_p3 : double; af_p4 : double; af_p5 : double; af_p6 : double;
  aMax_aMax : double;
  jMax_jMax : double
}.

(** The members of [Step1]; the scalar ones are grouped by role. *)
Record Step1 : Type := mk {
  boundary : Boundary;
  bounds : Bounds;
  precalc : Precalc;
  valid_profiles : vec Profile 6;     (* Max 6 valid profiles *)
  valid_profile_counter : nat;         (* size_t *)
  block : Block
}.

(** The total duration of a profile, the brake time included. *)
Definition total_duration (profile : Profile) (t_brake : double) : double :=
  (t_sum profile !!! 6%fin + t_brake)%float.

(** [inline void add_profile(Profile profile, double jMax)] *)
Definition add_profile (self : Step1) (profile : Profile) (jMax : double)
  : outcome Step1 :=
  let profile :=
    set_direction profile (if (0 <? jMax)%float then UP else DOWN) in
  match array_set (valid_profiles self) (valid_profile_counter self) profile with
  | Some profiles =>
      Returns (mk (boundary self) (bounds self) (precalc self)
                  profiles (S (valid_profile_counter self)) (block self))
  | None => Undefined
  end.

(** [inline void add_interval(std::optional<Block::Interval>& interval,
    size_t left, size_t right, double t_brake) const]; the result is the
    new value of [interval]. *)
Definition add_interval (self : Step1) (interval : option Interval)
    (left right : nat) (t_brake : double) : outcome (option Interval) :=
  match array_get (valid_profiles self) left,
        array_get (valid_profiles self) right with
  | Some profile_left, Some profile_right =>
      let left_duration := (t_sum profile_left !!! 6%fin + t_brake)%float in
      let right_duraction := (t_sum profile_right !!! 6%fin + t_brake)%float in
      if (left_duration <? right_duraction)%float then
        Returns (Some (mkInterval left_duration right_duraction profile_right))
      else
        Returns (Some (mkInterval right_duraction left_duration profile_left))
  | _, _ => Undefined
  end.

(** Successive [add_profile] calls, one per successful branch, in the
    order given; the first call without defined behaviour decides. *)
Fixpoint add_profiles (self : Step1) (calls : list (Profile * double))
  : outcome Step1 :=
  match calls with
  | [] => Returns self
  | (profile, jMax) :: calls =>
      match add_profile self profile jMax with
      | Returns self => add_profiles self calls
      | Throws e => Throws e
      | Undefined => Undefined
      end
  end.

End Step1.

(** ** Sample data *)

Module Samples.

Import Profile Block.

Definition zeros7 : vec double 7 := vreplicate 7 0%float.

(** A profile whose seven phases end after [d] seconds. *)
Definition lasting (d : double) (teeth : Teeth) (direction : Direction)
    (t_brake : option double) : Profile :=
  Profile.mk zeros7 (vinsert 6%fin d zeros7) 0 0 0 NONE teeth direction
             t_brake [# 0; 0]%float [# 0; 0]%float.

(** The trivial profile of a motion that is already at its target. *)
Definition rest : Profile := lasting 0 SINGLE_EXCURSION UP None.

(** Durations between 1 s and 2 s are blocked, the minimum is 0 s. *)
Definition gap : Interval :=
  mkInterval 1 2 (lasting 2 SINGLE_EXCURSION UP None).

Definition gapped : Block := Block.mk 0 rest (Some gap) None.

(** A [Step1] that has recorded nothing yet. *)
Definition idle : Step1.Step1 :=
  Step1.mk (Step1.mkBoundary 0 0 0 1 0 0) (Step1.mkBounds 1 (-1) 1 1)
           (Step1.mkPrecalc 1 0 0 0 0 0 0 0 0 0 0 0 0 1 1)
           (vreplicate 6 rest) 0 (Block.new rest).

(** Two branches succeeded, with different teeth and directions. *)
Definition slow : Profile := lasting 5 SINGLE_EXCURSION UP None.
Definition fast : Profile := lasting 3 DOUBLE_EXCURSION DOWN None.

Definition two_recorded : Step1.Step1 :=
  Step1.mk (Step1.boundary idle) (Step1.bounds idle) (Step1.precalc idle)
           [# slow; fast; rest; rest; rest; rest] 2 (Block.new fast).

(** Two recorded profiles, the second with a NaN in its last sum. *)
Definition nan_recorded : Step1.Step1 :=
  Step1.mk (Step1.boundary idle) (Step1.bounds idle) (Step1.precalc idle)
           [# fast; lasting nan SINGLE_EXCURSION UP None;
              rest; rest; rest; rest] 2 (Block.new fast).

(** Stand-ins for the two brake solvers, with outputs that differ from
    the untouched arrays. *)
Definition acceleration_solver
    (v0 a0 vMax aMax jMax : double) (out : Brake.Trajectory) : Brake.Trajectory :=
  Brake.mk [# 1; 0]%float [# jMax; 0]%float.

Definition velocity_solver
    (v0 a0 vMax aMax jMax : double) (out : Brake.Trajectory) : Brake.Trajectory :=
  Brake.mk [# 1; 1]%float [# jMax; (- jMax)]%float.

End Samples.

(** * Properties *)

(** ** Comparisons and differences of binary64 values *)

Module Float64.

Lemma SFcompare_refl_cases f :
  SFcompare f f = None \/ SFcompare f f = Some Eq.
Proof.
  destruct f as [s|s| |s m e]; simpl; auto.
  - destruct s; auto.
  - right. rewrite Z.compare_refl.
    change (Pos.compare_cont Eq m m) with (Pos.compare m m).
    rewrite Pos.compare_refl. destruct s; reflexivity.
Qed.

Lemma SFcompare_antisym f g :
  SFcompare g f = option_map CompOpp (SFcompare f g).
Proof.
  destruct f as [s|s| |s m e], g as [s'|s'| |s' m' e']; simpl;
    try reflexivity; try (destruct s; reflexivity);
    try (destruct s'; reflexivity); try (destruct s, s'; reflexivity).
  change (Pos.compare_cont Eq m' m) with (Pos.compare m' m).
  change (Pos.compare_cont Eq m m') with (Pos.compare m m').
  rewrite (Z.compare_antisym e e'), (Pos.compare_antisym m m').
  destruct s, s'; simpl; try reflexivity;
    destruct (e ?= e')%Z; simpl; try reflexivity;
    destruct (m ?= m')%positive; reflexivity.
Qed.

(** Case analysis on how [x] compares with [y], both ways round. *)
Ltac by_compare x y :=
  rewrite ?ltb_spec, ?leb_spec, ?FloatAxioms.eqb_spec;
  unfold SFltb, SFleb, SFeqb;
  rewrite (SFcompare_antisym (Prim2SF x) (Prim2SF y));
  destruct (SFcompare (Prim2SF x) (Prim2SF y)) as [[]|];
  simpl; congruence.

Lemma ltb_irrefl x : (x <? x)%float = false.
Proof.
  rewrite ltb_spec. unfold SFltb.
  destruct (SFcompare_refl_cases (Prim2SF x)) as [-> | ->]; reflexivity.
Qed.

Lemma ltb_asym x y : (x <? y)%float = true -> (y <? x)%float = false.
Proof. by_compare x y. Qed.

Lemma leb_not_gt x y : (x <=? y)%float = true -> (y <? x)%float = false.
Proof. by_compare x y. Qed.

Lemma eqb_not_gt x y : (x =? y)%float = true -> (y <? x)%float = false.
Proof. by_compare x y. Qed.

Lemma is_number_compare x y :
  is_number x = true -> is_number y = true ->
  exists c, SFcompare (Prim2SF x) (Prim2SF y) = Some c.
Proof.
  unfold is_number. rewrite !FloatAxioms.eqb_spec. unfold SFeqb.
  destruct (Prim2SF x) as [s|s| |s m e], (Prim2SF y) as [s'|s'| |s' m' e'];
    simpl; try discriminate; eauto.
Qed.

Lemma not_ltb_leb x y :
  is_number x = true -> is_number y = true ->
  (x <? y)%float = false -> (y <=? x)%float = true.
Proof.
  intros Hx Hy. destruct (is_number_compare x y Hx Hy) as [c Hc].
  rewrite ltb_spec, leb_spec. unfold SFltb, SFleb.
  rewrite (SFcompare_antisym (Prim2SF x) (Prim2SF y)), Hc.
  destruct c; simpl; congruence.
Qed.

Lemma ltb_leb x y : (x <? y)%float = true -> (x <=? y)%float = true.
Proof.
  rewrite ltb_spec, leb_spec. unfold SFltb, SFleb.
  destruct (SFcompare (Prim2SF x) (Prim2SF y)) as [[]|]; congruence.
Qed.

Lemma not_ltb_eqb x y :
  is_number x = true -> is_number y = true ->
  (x <? y)%float = false -> (y <? x)%float = false ->
  (x =? y)%float = true.
Proof.
  intros Hx Hy. destruct (is_number_compare x y Hx Hy) as [c Hc].
  rewrite !ltb_spec, FloatAxioms.eqb_spec. unfold SFltb, SFeqb.
  rewrite (SFcompare_antisym (Prim2SF x) (Prim2SF y)), Hc.
  destruct c; simpl; congruence.
Qed.

Lemma eqb_sym x y : (x =? y)%float = (y =? x)%float.
Proof.
  rewrite !FloatAxioms.eqb_spec. unfold SFeqb.
  rewrite (SFcompare_antisym (Prim2SF x) (Prim2SF y)).
  destruct (SFcompare (Prim2SF x) (Prim2SF y)) as [[]|]; reflexivity.
Qed.

(** *** The sign of a rounded difference *)

Lemma SFltb_pos_nonpos m e f :
  nonpos f -> SFltb (S754_finite false m e) f = false.
Proof. destruct f as [s|s| |s m' e']; simpl; intros; subst; reflexivity. Qed.

Lemma binary_round_aux_sign sx mx ex lx :
  match binary_round_aux prec emax sx mx ex lx with
  | S754_zero s | S754_infinity s | S754_finite s _ _ => s = sx
  | S754_nan => True
  end.
Proof.
  unfold binary_round_aux.
  destruct (shr_fexp prec emax mx ex lx) as [mrs' e'].
  destruct (shr_fexp prec emax _ e' loc_Exact) as [mrs'' e''].
  destruct (shr_m mrs''); [ | destruct (Z.leb _ _) | ]; simpl; auto.
Qed.

Lemma binary_normalize_nonpos m e :
  (m <= 0)%Z -> nonpos (binary_normalize prec emax m e false).
Proof.
  destruct m as [|p|p]; simpl; [trivial | lia | intros _].
  unfold binary_round. destruct (shl_align _ _ _) as [mz ez].
  pose proof (binary_round_aux_sign true (Zpos mz) ez loc_Exact) as H.
  destruct (binary_round_aux _ _ _ _ _ _); simpl; auto.
Qed.

Lemma digits2_pos_size m : digits2_pos m = Pos.size m.
Proof. induction m; simpl; congruence. Qed.

Lemma shl_align_value m e ez :
  (ez <= e)%Z ->
  Zpos (fst (shl_align m e ez)) = (Zpos m * 2 ^ (e - ez))%Z.
Proof.
  intros Hle. unfold shl_align.
  destruct (ez - e)%Z as [|d|d] eqn:Hd; simpl.
  - replace (e - ez)%Z with 0%Z by lia. simpl. lia.
  - lia.
  - replace (e - ez)%Z with (Zpos d) by lia.
    change (Pos.iter xO m d) with (shift_pos d m).
    rewrite shift_pos_correct, Z.pow_pos_fold. lia.
Qed.

Lemma bounded_exponent m e :
  bounded prec emax m e = true -> (-1074 <= e)%Z.
Proof.
  unfold bounded, canonical_mantissa, fexp, SpecFloat.emin, prec, emax.
  intros [H _]%andb_prop. apply Z.eqb_eq in H. lia.
Qed.

Lemma bounded_mantissa_lt m e :
  bounded prec emax m e = true -> (Zpos m < 2 ^ 53)%Z.
Proof.
  unfold bounded, canonical_mantissa, fexp, SpecFloat.emin, prec, emax.
  intros [H _]%andb_prop. apply Z.eqb_eq in H.
  rewrite digits2_pos_size in H.
  assert (Hd : (Zpos (Pos.size m) <= 53)%Z) by lia.
  pose proof (Pos.size_gt m) as Hgt.
  apply Pos2Z.pos_lt_pos in Hgt. rewrite Pos2Z.inj_pow in Hgt.
  eapply Z.lt_le_trans; [exact Hgt|].
  apply Z.pow_le_mono_r; lia.
Qed.

Lemma bounded_mantissa_ge m e :
  bounded prec emax m e = true -> (-1074 < e)%Z -> (2 ^ 52 <= Zpos m)%Z.
Proof.
  unfold bounded, canonical_mantissa, fexp, SpecFloat.emin, prec, emax.
  intros [H _]%andb_prop He. apply Z.eqb_eq in H.
  rewrite digits2_pos_size in H.
  assert (Hd : Zpos (Pos.size m) = 53%Z) by lia.
  pose proof (Pos.size_le m) as Hle.
  apply Pos2Z.pos_le_pos in Hle. rewrite Pos2Z.inj_pow, Hd in Hle.
  change (2 ^ 53)%Z with (2 * 2 ^ 52)%Z in Hle. lia.
Qed.

(** Of two valid finite values, the one with the larger exponent has
    the larger magnitude once both are aligned to the smaller one. *)
Lemma aligned_lt m e m' e' :
  bounded prec emax m e = true -> bounded prec emax m' e' = true ->
  (e < e')%Z ->
  (Zpos (fst (shl_align m e (Z.min e e')))
   < Zpos (fst (shl_align m' e' (Z.min e e'))))%Z.
Proof.
  intros Hb Hb' Hlt.
  rewrite !shl_align_value by lia.
  replace (Z.min e e') with e by lia.
  rewrite Z.sub_diag, Z.pow_0_r, Z.mul_1_r.
  pose proof (bounded_mantissa_lt _ _ Hb) as Hm.
  pose proof (bounded_exponent _ _ Hb) as He.
  pose proof (bounded_mantissa_ge _ _ Hb' ltac:(lia)) as Hm'.
  assert (Hp : (2 ^ 1 <= 2 ^ (e' - e))%Z) by (apply Z.pow_le_mono_r; lia).
  change (2 ^ 53)%Z with (2 ^ 52 * 2 ^ 1)%Z in Hm. nia.
Qed.

Lemma aligned_eq m e m' :
  Zpos (fst (shl_align m e (Z.min e e))) = Zpos m
  /\ Zpos (fst (shl_align m' e (Z.min e e))) = Zpos m'.
Proof.
  rewrite !shl_align_value by lia.
  replace (e - Z.min e e)%Z with 0%Z by lia. simpl. lia.
Qed.

Lemma SFsub_nonpos f g :
  valid_binary f = true -> valid_binary g = true ->
  SFleb f g = true -> nonpos (SF64sub f g).
Proof.
  unfold SFleb, SF64sub.
  destruct f as [s|s| |s m e], g as [s'|s'| |s' m' e']; simpl;
    try discriminate; try (intros _ _; trivial; fail);
    try (destruct s, s'; simpl; intros _ _ Hle; done);
    try (destruct s; simpl; intros _ _ Hle; done);
    try (destruct s'; simpl; intros _ _ Hle; done).
  intros Hb Hb' Hle. apply binary_normalize_nonpos.
  destruct s, s'; simpl in *; try discriminate; try lia.
  - destruct (Z.compare_spec e e') as [-> | Hlt | Hgt]; try discriminate.
    + destruct (aligned_eq m e' m') as [-> ->].
      change (Pos.compare_cont Eq m m') with (Pos.compare m m') in Hle.
      destruct (Pos.compare_spec m m'); simpl in Hle; try discriminate; lia.
    + rewrite (Z.min_comm e e').
      pose proof (aligned_lt m' e' m e Hb' Hb ltac:(lia)). lia.
  - destruct (Z.compare_spec e e') as [-> | Hlt | Hgt]; try discriminate.
    + destruct (aligned_eq m e' m') as [-> ->].
      change (Pos.compare_cont Eq m m') with (Pos.compare m m') in Hle.
      destruct (Pos.compare_spec m m'); simpl in Hle; try discriminate; lia.
    + pose proof (aligned_lt m e m' e' Hb Hb' Hlt). lia.
Qed.

(** A value that does not exceed another one is not above it by any
    positive margin: the rounded difference is never positive. *)
Lemma sub_not_above (margin x y : double) :
  (0 <? margin)%float = true ->
  (x <=? y)%float = true -> (margin <? x - y)%float = false.
Proof.
  rewrite !ltb_spec, leb_spec, sub_spec. intros Hpos Hle.
  pose proof (SFsub_nonpos _ _ (Prim2SF_valid x) (Prim2SF_valid y) Hle) as Hn.
  change (Prim2SF 0) with (S754_zero false) in Hpos.
  destruct (Prim2SF margin) as [s|s| |s m e]; try discriminate.
  - destruct s; [discriminate|].
    destruct (SF64sub _ _) as [s1|s1| |s1 m1 e1]; simpl in *; subst; reflexivity.
  - destruct s; [discriminate|]. now apply SFltb_pos_nonpos.
Qed.

End Float64.

(** ** Block *)

Module BlockFacts.

Import Profile Block.

Lemma inside_true (o : option Interval) (t : double) :
  inside o t = true <-> exists i, o = Some i /\ strictly_inside i t.
Proof.
  unfold inside, strictly_inside. destruct o as [i|].
  - rewrite andb_true_iff. split.
    + intros H. exists i. split; [reflexivity | exact H].
    + intros (j & [= <-] & H). exact H.
  - split; [discriminate | intros (j & [=] & _)].
Qed.

Lemma inside_right (i : Interval) : inside (Some i) (right i) = false.
Proof.
  simpl. rewrite (Float64.ltb_irrefl (right i)). apply andb_false_r.
Qed.

Lemma inside_left (i : Interval) : inside (Some i) (left i) = false.
Proof. simpl. now rewrite (Float64.ltb_irrefl (left i)). Qed.

Lemma is_blocked_true (blk : Block) (t : double) :
  is_blocked blk t = true <->
    (t <? t_min blk)%float = true
    \/ (exists i, a blk = Some i /\ strictly_inside i t)
    \/ (exists i, b blk = Some i /\ strictly_inside i t).
Proof.
  unfold is_blocked. rewrite !orb_true_iff, !inside_true. tauto.
Qed.

(** C1. [is_blocked t] holds exactly when [t < t_min], or [a] is present
    with [a.left < t < a.right], or [b] is present with
    [b.left < t < b.right].  In particular [t_min] itself is not blocked
    when it lies strictly inside no present interval, and no interval
    blocks its own right endpoint. *)
Theorem is_blocked_iff (blk : Block) (t : double) :
  (is_blocked blk t = true <->
     (t <? t_min blk)%float = true
     \/ (exists i, a blk = Some i /\ strictly_inside i t)
     \/ (exists i, b blk = Some i /\ strictly_inside i t))
  /\ ((forall i, a blk = Some i -> ~ strictly_inside i (t_min blk)) ->
      (forall i, b blk = Some i -> ~ strictly_inside i (t_min blk)) ->
      is_blocked blk (t_min blk) = false)
  /\ (forall i, a blk = Some i -> inside (a blk) (right i) = false)
  /\ (forall i, b blk = Some i -> inside (b blk) (right i) = false).
Proof.
  split; [apply is_blocked_true | split; [| split]].
  - intros Ha Hb. apply not_true_is_false. intros Hblk.
    apply is_blocked_true in Hblk
      as [Hlt | [(i & Hi & Hin) | (i & Hi & Hin)]].
    + rewrite Float64.ltb_irrefl in Hlt. discriminate.
    + exact (Ha i Hi Hin).
    + exact (Hb i Hi Hin).
  - intros i ->. apply inside_right.
  - intros i ->. apply inside_right.
Qed.

Example is_blocked_samples :
  is_blocked Samples.gapped 1.5 = true
  /\ is_blocked Samples.gapped 1 = false
  /\ is_blocked Samples.gapped 2 = false
  /\ is_blocked Samples.gapped (-1) = true
  /\ is_blocked Samples.gapped nan = false.
Proof. repeat split. Qed.

(** The two cases of the gap law exclude each other, and [is_blocked]
    tells them apart: above [t_min] and strictly inside no interval a
    duration is free, below [t_min] or strictly inside one it is not. *)
Lemma gap_law_cases (blk : Block) (tf : double) :
  ((t_min blk <? tf)%float = true ->
   (forall i, a blk = Some i -> ~ strictly_inside i tf) ->
   (forall i, b blk = Some i -> ~ strictly_inside i tf) ->
   is_blocked blk tf = false)
  /\ ((tf <? t_min blk)%float = true
      \/ (exists i, (a blk = Some i \/ b blk = Some i) /\ strictly_inside i tf) ->
      is_blocked blk tf = true).
Proof.
  split.
  - intros Habove Ha Hb. apply not_true_is_false. intros Hblk.
    apply is_blocked_true in Hblk
      as [Hlt | [(i & Hi & Hin) | (i & Hi & Hin)]].
    + rewrite (Float64.ltb_asym _ _ Habove) in Hlt. discriminate Hlt.
    + exact (Ha i Hi Hin).
    + exact (Hb i Hi Hin).
  - intros Hcase. apply is_blocked_true.
    destruct Hcase as [Hlt | (i & [Hi | Hi] & Hin)]; eauto.
Qed.

(** The half-open reading of C2 fails on the sample block: the left
    endpoint of its interval is at least [t_min], and it is not blocked. *)
Lemma left_endpoint_not_blocked :
  a Samples.gapped = Some Samples.gap
  /\ (t_min Samples.gapped <=? left Samples.gap)%float = true
  /\ is_blocked Samples.gapped (left Samples.gap) = false.
Proof. split; [| split]; reflexivity. Qed.

(** C2, amended. A stored interval denotes the open range
    [(left, right)]: when its left endpoint is at least [t_min], every
    [t] with [left < t < right] is blocked, the interval blocks neither of
    its endpoints, and [left] itself is blocked exactly when it lies
    strictly inside the other stored interval. *)
Theorem interval_is_open (blk : Block) (i : Interval) :
  a blk = Some i \/ b blk = Some i ->
  (t_min blk <=? left i)%float = true ->
  (forall t, strictly_inside i t -> is_blocked blk t = true)
  /\ inside (Some i) (left i) = false
  /\ inside (Some i) (right i) = false
  /\ (a blk = Some i -> is_blocked blk (left i) = inside (b blk) (left i))
  /\ (b blk = Some i -> is_blocked blk (left i) = inside (a blk) (left i)).
Proof.
  intros Hheld Hmin.
  apply Float64.leb_not_gt in Hmin.
  repeat split.
  - intros t Hin. apply is_blocked_true.
    right. destruct Hheld; [left | right]; exists i; auto.
  - apply inside_left.
  - apply inside_right.
  - intros Ha. unfold is_blocked.
    rewrite Hmin, Ha, inside_left. reflexivity.
  - intros Hb. unfold is_blocked.
    rewrite Hmin, Hb, inside_left. apply orb_false_r.
Qed.

Lemma interval_is_open_witness :
  (forall t, strictly_inside Samples.gap t -> is_blocked Samples.gapped t = true)
  /\ inside (Some Samples.gap) 1 = false
  /\ inside (Some Samples.gap) 2 = false
  /\ (a Samples.gapped = Some Samples.gap ->
      is_blocked Samples.gapped 1 = inside None 1)
  /\ (b Samples.gapped = Some Samples.gap ->
      is_blocked Samples.gapped 1 = inside (Some Samples.gap) 1).
Proof.
  apply (interval_is_open Samples.gapped Samples.gap).
  - left. reflexivity.
  - reflexivity.
Defined.

(** C4. [Block(p)] caches [p] with its total duration, the brake time
    counting as 0 when absent, and holds no interval: just after
    construction exactly the durations below [t_min] are blocked. *)
Theorem new_block (p : Profile) :
  t_min (new p)
    = (t_sum p !!! 6%fin
       + match t_brake p with Some t => t | None => 0 end)%float
  /\ p_min (new p) = p
  /\ a (new p) = None
  /\ b (new p) = None
  /\ forall t, is_blocked (new p) t = true <-> (t <? t_min (new p))%float = true.
Proof.
  split; [| split; [| split; [| split]]].
  - unfold new. simpl. destruct (t_brake p); reflexivity.
  - reflexivity.
  - reflexivity.
  - reflexivity.
  - intros t. rewrite is_blocked_true. split.
    + intros [Hlt | [(i & Hi & _) | (i & Hi & _)]];
        [exact Hlt | discriminate Hi | discriminate Hi].
    + intros Hlt. left. exact Hlt.
Qed.

Example new_block_with_brake :
  t_min (new (Samples.lasting 3 SINGLE_EXCURSION UP (Some 0.5%float)))
  = 3.5%float.
Proof. reflexivity. Qed.

End BlockFacts.

(** ** Arrays *)

Module ArrayFacts.

Lemma array_get_lt {A : Type} {n : nat} (arr : vec A n) (i : nat) (x : A) :
  array_get arr i = Some x -> i < n.
Proof.
  unfold array_get. intros H%lookup_lt_Some.
  now rewrite length_vec_to_list in H.
Qed.

Lemma array_get_Some {A : Type} {n : nat} (arr : vec A n) (i : nat) :
  i < n -> exists x, array_get arr i = Some x.
Proof.
  intros Hi. unfold array_get.
  apply lookup_lt_is_Some_2. now rewrite length_vec_to_list.
Qed.

Lemma array_set_Some {A : Type} {n : nat} (arr : vec A n) (i : nat) (x : A) :
  i < n ->
  exists arr', array_set arr i x = Some arr'
    /\ array_get arr' i = Some x
    /\ forall j, j <> i -> array_get arr' j = array_get arr j.
Proof.
  intros Hi. unfold array_set, array_get.
  destruct (decide (i < n)) as [Hlt | Hge]; [| contradiction].
  eexists. split; [reflexivity |].
  rewrite vec_to_list_insert, fin_to_nat_to_fin. split.
  - apply list_lookup_insert_eq. now rewrite length_vec_to_list.
  - intros j Hj. now apply list_lookup_insert_ne.
Qed.

Lemma array_set_None {A : Type} {n : nat} (arr : vec A n) (i : nat) (x : A) :
  n <= i -> array_set arr i x = None.
Proof.
  intros Hi. unfold array_set.
  destruct (decide (i < n)) as [Hlt | Hge]; [lia | reflexivity].
Qed.

End ArrayFacts.

(** ** Step1 *)

Module Step1Facts.

Import Profile Block Step1 ArrayFacts.

(** What [add_interval] leaves in the slot, for two readable indices. *)
Lemma add_interval_result (s : Step1.Step1) (slot : option Interval)
    (left right : nat) (t_brake : double) (pl pr : Profile) :
  array_get (valid_profiles s) left = Some pl ->
  array_get (valid_profiles s) right = Some pr ->
  add_interval s slot left right t_brake
  = Returns (Some
      (if (total_duration pl t_brake <? total_duration pr t_brake)%float
       then mkInterval (total_duration pl t_brake) (total_duration pr t_brake) pr
       else mkInterval (total_duration pr t_brake) (total_duration pl t_brake) pl)).
Proof.
  intros Hl Hr. unfold add_interval, total_duration. rewrite Hl, Hr.
  destruct (_ <? _)%float; reflexivity.
Qed.

(** C3 fails for a state with a NaN duration: with total durations 3
    and NaN at the indices 0 and 1, the stored endpoints are not in
    ascending order and both change when the indices are swapped. *)
Lemma nan_duration_unordered :
  0 < valid_profile_counter Samples.nan_recorded
  /\ 1 < valid_profile_counter Samples.nan_recorded
  /\ exists itv itv',
       add_interval Samples.nan_recorded None 0 1 0 = Returns (Some itv)
       /\ add_interval Samples.nan_recorded None 1 0 0 = Returns (Some itv')
       /\ (Block.left itv <=? Block.right itv)%float = false
       /\ (Block.left itv =? Block.left itv')%float = false
       /\ (Block.right itv =? Block.right itv')%float = false.
Proof.
  split; [simpl; lia | split; [simpl; lia |]].
  eexists _, _.
  split; [reflexivity | split; [reflexivity |]].
  repeat split.
Qed.

(** C3, amended. For indices below [valid_profile_counter],
    [add_interval] stores an interval whose endpoints are the two total
    durations (brake time included), never in descending order, with
    the profile of the right endpoint; when both durations are numbers
    (not NaN) the left endpoint is at most the right one and both
    endpoints compare equal after swapping the two indices, the whole
    interval being identical when the durations differ. *)
Theorem add_interval_ordered (s : Step1.Step1) (slot : option Interval)
    (left right : nat) (t_brake : double) :
  left < valid_profile_counter s ->
  right < valid_profile_counter s ->
  valid_profile_counter s <= 6 ->
  exists pl pr itv itv',
    array_get (valid_profiles s) left = Some pl
    /\ array_get (valid_profiles s) right = Some pr
    /\ add_interval s slot left right t_brake = Returns (Some itv)
    /\ add_interval s slot right left t_brake = Returns (Some itv')
    /\ ((Block.left itv = total_duration pl t_brake
         /\ Block.right itv = total_duration pr t_brake)
        \/ (Block.left itv = total_duration pr t_brake
            /\ Block.right itv = total_duration pl t_brake))
    /\ (Block.right itv <? Block.left itv)%float = false
    /\ total_duration (profile itv) t_brake = Block.right itv
    /\ ((total_duration pl t_brake <? total_duration pr t_brake)%float = true
        \/ (total_duration pr t_brake <? total_duration pl t_brake)%float = true ->
        itv = itv')
    /\ (is_number (total_duration pl t_brake) = true ->
        is_number (total_duration pr t_brake) = true ->
        (Block.left itv <=? Block.right itv)%float = true
        /\ (Block.left itv =? Block.left itv')%float = true
        /\ (Block.right itv =? Block.right itv')%float = true).
Proof.
  intros Hl Hr Hcap.
  destruct (array_get_Some (valid_profiles s) left) as [pl Hpl]; [lia |].
  destruct (array_get_Some (valid_profiles s) right) as [pr Hpr]; [lia |].
  exists pl, pr.
  rewrite (add_interval_result s slot left right t_brake pl pr Hpl Hpr).
  rewrite (add_interval_result s slot right left t_brake pr pl Hpr Hpl).
  set (dl := total_duration pl t_brake).
  set (dr := total_duration pr t_brake).
  destruct (dl <? dr)%float eqn:Hlr.
  - (* the left index has the shorter profile *)
    pose proof (Float64.ltb_asym dl dr Hlr) as Hrl. rewrite Hrl.
    eexists _, _. repeat split; simpl; try reflexivity; auto.
    now apply Float64.ltb_leb.
  - destruct (dr <? dl)%float eqn:Hrl.
    + (* the right index has the shorter profile *)
      eexists _, _. repeat split; simpl; try reflexivity; auto.
      now apply Float64.ltb_leb.
    + (* neither duration is below the other *)
      eexists _, _. repeat split; simpl; try reflexivity; auto.
      * intros [H | H]; discriminate H.
      * now apply Float64.not_ltb_leb.
      * now apply Float64.not_ltb_eqb.
      * rewrite Float64.eqb_sym. now apply Float64.not_ltb_eqb.
Qed.

Lemma add_interval_ordered_witness :
  exists itv itv',
    add_interval Samples.two_recorded None 0 1 0.5%float = Returns (Some itv)
    /\ add_interval Samples.two_recorded None 1 0 0.5%float = Returns (Some itv')
    /\ (Block.left itv <=? Block.right itv)%float = true
    /\ total_duration (profile itv) 0.5%float = Block.right itv
    /\ itv = itv'.
Proof.
  destruct (add_interval_ordered Samples.two_recorded None 0 1 0.5%float)
    as (pl & pr & itv & itv' & Hpl & Hpr & Hadd & Hadd' & _ & _ & Hp & Hsame & Hnum);
    [simpl; lia | simpl; lia | simpl; lia |].
  injection Hpl as <-. injection Hpr as <-.
  exists itv, itv'. repeat split; try assumption.
  - apply Hnum; reflexivity.
  - apply Hsame. right. reflexivity.
Defined.

(** C5. [add_interval] has no guard: whatever the teeth and direction
    tags of the two profiles and whatever the slot held before, it
    returns normally with the slot holding the freshly built interval. *)
Theorem add_interval_unguarded (s : Step1.Step1) (slot : option Interval)
    (left right : nat) (t_brake : double) (pl pr : Profile) :
  array_get (valid_profiles s) left = Some pl ->
  array_get (valid_profiles s) right = Some pr ->
  exists itv,
    add_interval s slot left right t_brake = Returns (Some itv)
    /\ (itv = mkInterval (total_duration pl t_brake)
                         (total_duration pr t_brake) pr
        \/ itv = mkInterval (total_duration pr t_brake)
                            (total_duration pl t_brake) pl)
    /\ (forall slot', add_interval s slot' left right t_brake
                      = add_interval s slot left right t_brake).
Proof.
  intros Hpl Hpr.
  rewrite (add_interval_result s slot left right t_brake pl pr Hpl Hpr).
  eexists. split; [reflexivity |]. split.
  - destruct (_ <? _)%float; [left | right]; reflexivity.
  - intros slot'. apply (add_interval_result s slot'); assumption.
Qed.

Lemma add_interval_unguarded_witness :
  teeth Samples.slow <> teeth Samples.fast
  /\ direction Samples.slow <> direction Samples.fast
  /\ exists itv,
       add_interval Samples.two_recorded (Some Samples.gap) 0 1 0
       = Returns (Some itv)
       /\ itv <> Samples.gap
       /\ itv = mkInterval 3 5 Samples.slow.
Proof.
  split; [discriminate | split; [discriminate |]].
  destruct (add_interval_unguarded Samples.two_recorded (Some Samples.gap)
              0 1 0 Samples.slow Samples.fast eq_refl eq_refl)
    as (itv & Hadd & _).
  exists itv. split; [exact Hadd |].
  vm_compute in Hadd. injection Hadd as <-.
  split; [discriminate | reflexivity].
Defined.

(** One [add_profile] call on a state with a free entry. *)
Lemma add_profile_returns (s : Step1.Step1) (p : Profile) (jMax : double) :
  valid_profile_counter s < 6 ->
  exists s',
    add_profile s p jMax = Returns s'
    /\ array_get (valid_profiles s') (valid_profile_counter s)
       = Some (set_direction p (if (0 <? jMax)%float then UP else DOWN))
    /\ (forall j, j <> valid_profile_counter s ->
        array_get (valid_profiles s') j = array_get (valid_profiles s) j)
    /\ valid_profile_counter s' = S (valid_profile_counter s).
Proof.
  intros Hlt. unfold add_profile.
  destruct (array_set_Some (valid_profiles s) (valid_profile_counter s)
              (set_direction p (if (0 <? jMax)%float then UP else DOWN)) Hlt)
    as (arr' & -> & Hget & Hother).
  eexists. split; [reflexivity |]. simpl. auto.
Qed.

Lemma add_profile_undefined (s : Step1.Step1) (p : Profile) (jMax : double) :
  6 <= valid_profile_counter s -> add_profile s p jMax = Undefined.
Proof.
  intros Hge. unfold add_profile. now rewrite array_set_None.
Qed.

(** C7. [add_profile] stores the profile it is given, every field
    but the direction as passed, tagged [UP] exactly when [jMax > 0] and
    [DOWN] otherwise (so also for a zero [jMax]), at index
    [valid_profile_counter], leaves the other entries alone and
    increments the counter by one. *)
Theorem add_profile_records (s : Step1.Step1) (p : Profile) (jMax : double) :
  valid_profile_counter s < 6 ->
  exists s' q,
    add_profile s p jMax = Returns s'
    /\ array_get (valid_profiles s') (valid_profile_counter s) = Some q
    /\ (Profile.t q = Profile.t p
        /\ Profile.t_sum q = Profile.t_sum p
        /\ Profile.pf q = Profile.pf p
        /\ Profile.vf q = Profile.vf p
        /\ Profile.af q = Profile.af p
        /\ Profile.limits q = Profile.limits p
        /\ Profile.teeth q = Profile.teeth p
        /\ Profile.t_brake q = Profile.t_brake p
        /\ Profile.t_brakes q = Profile.t_brakes p
        /\ Profile.j_brakes q = Profile.j_brakes p)
    /\ (Profile.direction q = UP <-> (0 <? jMax)%float = true)
    /\ (Profile.direction q = DOWN <-> (0 <? jMax)%float = false)
    /\ ((jMax =? 0)%float = true -> Profile.direction q = DOWN)
    /\ (forall j, j <> valid_profile_counter s ->
        array_get (valid_profiles s') j = array_get (valid_profiles s) j)
    /\ valid_profile_counter s' = S (valid_profile_counter s).
Proof.
  intros Hlt.
  destruct (add_profile_returns s p jMax Hlt)
    as (s' & Hadd & Hget & Hother & Hcount).
  exists s', (set_direction p (if (0 <? jMax)%float then UP else DOWN)).
  split; [exact Hadd | split; [exact Hget |]].
  split; [repeat split |]. simpl.
  split; [| split; [| split; [| split]]]; try assumption.
  - destruct (0 <? jMax)%float; split; congruence.
  - destruct (0 <? jMax)%float; split; congruence.
  - intros Hzero. now rewrite (Float64.eqb_not_gt jMax 0 Hzero).
Qed.

Lemma add_profile_records_witness :
  exists s',
    add_profile Samples.two_recorded Samples.slow (-1)%float = Returns s'
    /\ array_get (valid_profiles s') 2
       = Some (Samples.lasting 5 SINGLE_EXCURSION DOWN None)
    /\ array_get (valid_profiles s') 1 = Some Samples.fast
    /\ valid_profile_counter s' = 3.
Proof.
  destruct (add_profile_records Samples.two_recorded Samples.slow (-1)%float)
    as (s' & q & Hadd & Hget & Hfields & _ & Hdown & _ & Hother & Hcount);
    [simpl; lia |].
  exists s'. split; [exact Hadd |].
  split; [| split; [| exact Hcount]].
  - simpl in Hget. rewrite Hget. f_equal.
    destruct Hfields as (Ht & Hsum & Hpf & Hvf & Haf & Hlim & Hteeth
                          & Hbrake & Hbrakes & Hjerks).
    apply proj2 in Hdown. specialize (Hdown eq_refl).
    destruct q. simpl in *. now subst.
  - rewrite Hother by (simpl; lia). reflexivity.
Defined.

Lemma add_profiles_returns (calls : list (Profile * double)) :
  forall s : Step1.Step1,
    valid_profile_counter s + length calls <= 6 ->
    exists s',
      add_profiles s calls = Returns s'
      /\ valid_profile_counter s' = valid_profile_counter s + length calls.
Proof.
  induction calls as [| [p jMax] calls IH]; intros s Hroom; simpl in *.
  - exists s. split; [reflexivity | lia].
  - destruct (add_profile_returns s p jMax) as (s1 & -> & _ & _ & Hcount);
      [lia |].
    destruct (IH s1) as (s' & Hadd & Hcount'); [lia |].
    exists s'. split; [exact Hadd | lia].
Qed.

Lemma add_profiles_undefined (calls : list (Profile * double)) :
  forall s : Step1.Step1,
    valid_profile_counter s <= 6 ->
    6 < valid_profile_counter s + length calls ->
    add_profiles s calls = Undefined.
Proof.
  induction calls as [| [p jMax] calls IH]; intros s Hcap Hover; simpl in *.
  - lia.
  - destruct (decide (valid_profile_counter s < 6)) as [Hlt | Hge].
    + destruct (add_profile_returns s p jMax Hlt) as (s1 & -> & _ & _ & Hcount).
      apply IH; lia.
    + rewrite add_profile_undefined by lia. reflexivity.
Qed.

(** C9. The write in [add_profile] is in bounds exactly when
    [valid_profile_counter < 6].  A computation that starts with no
    recorded profile and records at most 6 never leaves the array: every
    call returns and the counter ends at the number of calls, at most 6;
    a seventh call would leave it. *)
Theorem add_profile_in_bounds :
  (forall s p jMax,
     (exists s', add_profile s p jMax = Returns s')
     <-> valid_profile_counter s < 6)
  /\ (forall s p jMax,
       add_profile s p jMax = Undefined <-> 6 <= valid_profile_counter s)
  /\ (forall s calls,
       valid_profile_counter s = 0 -> length calls <= 6 ->
       exists s', add_profiles s calls = Returns s'
         /\ valid_profile_counter s' = length calls
         /\ valid_profile_counter s' <= 6)
  /\ (forall s calls,
       valid_profile_counter s = 0 -> 6 < length calls ->
       add_profiles s calls = Undefined).
Proof.
  split; [| split; [| split]].
  - intros s p jMax. split.
    + intros [s' Hadd].
      destruct (decide (valid_profile_counter s < 6)) as [Hlt | Hge]; [exact Hlt |].
      rewrite add_profile_undefined in Hadd by lia. discriminate Hadd.
    + intros Hlt.
      destruct (add_profile_returns s p jMax Hlt) as (s' & Hadd & _).
      now exists s'.
  - intros s p jMax. split.
    + intros Hundef.
      destruct (decide (valid_profile_counter s < 6)) as [Hlt | Hge]; [| lia].
      destruct (add_profile_returns s p jMax Hlt) as (s' & Hadd & _).
      rewrite Hadd in Hundef. discriminate Hundef.
    + apply add_profile_undefined.
  - intros s calls Hzero Hlen.
    destruct (add_profiles_returns calls s) as (s' & Hadd & Hcount); [lia |].
    exists s'. split; [exact Hadd | lia].
  - intros s calls Hzero Hlen. apply add_profiles_undefined; lia.
Qed.

Lemma add_profile_in_bounds_witness :
  exists s', add_profiles Samples.idle
               (replicate 6 (Samples.slow, 1%float)) = Returns s'
    /\ valid_profile_counter s' = 6.
Proof.
  destruct add_profile_in_bounds as (_ & _ & Hfit & _).
  destruct (Hfit Samples.idle (replicate 6 (Samples.slow, 1%float)))
    as (s' & Hadd & Hcount & _); [reflexivity | simpl; lia |].
  exists s'. split; [exact Hadd | exact Hcount].
Defined.

End Step1Facts.

(** ** Brake *)

Module BrakeFacts.

Import Brake.

Lemma eps_positive : (0 <? eps)%float = true.
Proof. reflexivity. Qed.

Lemma within_not_beyond (x bound : double) :
  (x <=? bound)%float = true -> beyond x bound = false.
Proof.
  intros Hle. unfold beyond.
  apply Float64.sub_not_above; [exact eps_positive | exact Hle].
Qed.

(** C8. [get_brake_trajectory] returns for every input, with the
    untouched zero arrays or with what one of the two solvers left in
    them; for [v0] in [[vMin, vMax]] and [a0] in [[-aMax, aMax]] no solver
    runs and both brake durations are zero.  The preconditions on the
    bounds are not needed for this. *)
Theorem brake_in_bounds
    (acceleration_brake velocity_brake :
       double -> double -> double -> double -> double ->
       Trajectory -> Trajectory)
    (v0 a0 vMax vMin aMax jMax : double) :
  let result :=
    get_brake_trajectory acceleration_brake velocity_brake
                         v0 a0 vMax vMin aMax jMax in
  (result = none
   \/ (exists v a j, result = acceleration_brake v0 a0 v a j none)
   \/ (exists v a j, result = velocity_brake v0 a0 v a j none))
  /\ ((vMin <=? v0)%float = true -> (v0 <=? vMax)%float = true ->
      (- aMax <=? a0)%float = true -> (a0 <=? aMax)%float = true ->
      result = none /\ t_brake result = [# 0; 0]%float).
Proof.
  intros result. subst result. unfold get_brake_trajectory. split.
  - destruct (beyond a0 aMax); [right; left; eauto |].
    destruct (beyond (- aMax) a0); [right; left; eauto |].
    destruct (beyond v0 vMax); [right; right; eauto |].
    destruct (beyond vMin v0); [right; right; eauto |].
    left. reflexivity.
  - intros Hvlo Hvhi Halo Hahi.
    rewrite (within_not_beyond a0 aMax Hahi).
    rewrite (within_not_beyond (- aMax)%float a0 Halo).
    rewrite (within_not_beyond v0 vMax Hvhi).
    rewrite (within_not_beyond vMin v0 Hvlo).
    split; reflexivity.
Qed.

Lemma brake_in_bounds_witness :
  get_brake_trajectory Samples.acceleration_solver Samples.velocity_solver
                       0.5 (-1) 1 (-1) 1 1
  = none.
Proof.
  apply (brake_in_bounds Samples.acceleration_solver Samples.velocity_solver
           0.5 (-1) 1 (-1) 1 1); reflexivity.
Defined.

(** Out of bounds by more than the tolerance, a solver does run. *)
Example brake_runs_out_of_bounds :
  get_brake_trajectory Samples.acceleration_solver Samples.velocity_solver
                       0 2 1 (-1) 1 1
  = Samples.acceleration_solver 0 2 1 1 1 none
  /\ get_brake_trajectory Samples.acceleration_solver Samples.velocity_solver
                          (-3) 0 1 (-1) 1 1
     = Samples.velocity_solver (-3) 0 (-1) (-1) (-1) none.
Proof. split; reflexivity. Qed.

End BrakeFacts.

(** ** RuckigError *)

Module ErrorFacts.

Import Profile Block Step1.


Lemma c_str_nul_free (s : string) : nul_free s = true -> c_str s = s.
Proof.
  induction s as [| c s IH]; simpl; [reflexivity |].
  intros [Hc Hs]%andb_prop. apply negb_true_iff in Hc.
  rewrite Hc. f_equal. now apply IH.
Qed.


Lemma what_new (m : string) :
  what (RuckigError_new m) = (String LF "[ruckig] " ++ c_str m)%string.
Proof. reflexivity. Qed.




End ErrorFacts.

(** * Further properties of the code *)

(** ** Order, NaN and infinities of binary64 values *)

Module Float64Order.

(** Case analysis on every integer and mantissa comparison in sight. *)
Ltac split_compare :=
  repeat match goal with
  | H : context [Pos.compare_cont Eq ?a ?b] |- _ =>
      change (Pos.compare_cont Eq a b) with (Pos.compare a b) in H
  | |- context [Pos.compare_cont Eq ?a ?b] =>
      change (Pos.compare_cont Eq a b) with (Pos.compare a b)
  end;
  repeat match goal with
  | H : context [(?a ?= ?b)%Z] |- _ =>
      destruct (Z.compare_spec a b); simpl in H
  | |- context [(?a ?= ?b)%Z] =>
      destruct (Z.compare_spec a b); simpl
  | H : context [(?a ?= ?b)%positive] |- _ =>
      destruct (Pos.compare_spec a b); simpl in H
  | |- context [(?a ?= ?b)%positive] =>
      destruct (Pos.compare_spec a b); simpl
  end;
  try discriminate; try reflexivity; try lia.

Lemma SFcompare_lt_trans f g h :
  SFcompare f g = Some Lt -> SFcompare g h = Some Lt ->
  SFcompare f h = Some Lt.
Proof.
  destruct f as [s|s| |s m e], g as [s'|s'| |s' m' e'],
           h as [s''|s''| |s'' m'' e''];
    simpl; try discriminate;
    repeat match goal with s : bool |- _ => destruct s end;
    simpl; try discriminate; try reflexivity;
    intros H1 H2; split_compare.
Qed.

Lemma SFcompare_le_lt_trans f g h c :
  SFcompare f g = Some c -> c <> Gt -> SFcompare g h = Some Lt ->
  SFcompare f h = Some Lt.
Proof.
  destruct f as [s|s| |s m e], g as [s'|s'| |s' m' e'],
           h as [s''|s''| |s'' m'' e''];
    simpl; try discriminate;
    repeat match goal with s : bool |- _ => destruct s end;
    simpl; try discriminate; try reflexivity;
    intros H1 Hc H2; try (injection H1 as <-; congruence);
    split_compare; try (injection H1 as <-; congruence).
Qed.

Lemma SFcompare_lt_le_trans f g h c :
  SFcompare f g = Some Lt -> SFcompare g h = Some c -> c <> Gt ->
  SFcompare f h = Some Lt.
Proof.
  destruct f as [s|s| |s m e], g as [s'|s'| |s' m' e'],
           h as [s''|s''| |s'' m'' e''];
    simpl; try discriminate;
    repeat match goal with s : bool |- _ => destruct s end;
    simpl; try discriminate; try reflexivity;
    intros H1 H2 Hc; try (injection H2 as <-; congruence);
    split_compare; try (injection H2 as <-; congruence).
Qed.

Lemma ltb_trans x y z :
  (x <? y)%float = true -> (y <? z)%float = true -> (x <? z)%float = true.
Proof.
  rewrite !ltb_spec. unfold SFltb.
  destruct (SFcompare (Prim2SF x) (Prim2SF y)) as [[]|] eqn:Hxy;
    try discriminate.
  destruct (SFcompare (Prim2SF y) (Prim2SF z)) as [[]|] eqn:Hyz;
    try discriminate.
  now rewrite (SFcompare_lt_trans _ _ _ Hxy Hyz).
Qed.

Lemma leb_ltb_trans x y z :
  (x <=? y)%float = true -> (y <? z)%float = true -> (x <? z)%float = true.
Proof.
  rewrite !ltb_spec, leb_spec. unfold SFltb, SFleb.
  destruct (SFcompare (Prim2SF x) (Prim2SF y)) as [c|] eqn:Hxy;
    try discriminate.
  destruct (SFcompare (Prim2SF y) (Prim2SF z)) as [[]|] eqn:Hyz;
    try discriminate.
  intros Hc _. rewrite (SFcompare_le_lt_trans _ _ _ c Hxy); auto.
  destruct c; congruence.
Qed.

Lemma ltb_leb_trans x y z :
  (x <? y)%float = true -> (y <=? z)%float = true -> (x <? z)%float = true.
Proof.
  rewrite !ltb_spec, leb_spec. unfold SFltb, SFleb.
  destruct (SFcompare (Prim2SF x) (Prim2SF y)) as [[]|] eqn:Hxy;
    try discriminate.
  destruct (SFcompare (Prim2SF y) (Prim2SF z)) as [c|] eqn:Hyz;
    try discriminate.
  intros _ Hc. rewrite (SFcompare_lt_le_trans _ _ _ c Hxy Hyz); auto.
  destruct c; congruence.
Qed.

Lemma not_number x : is_number x = false -> Prim2SF x = S754_nan.
Proof.
  unfold is_number. rewrite FloatAxioms.eqb_spec. unfold SFeqb.
  destruct (Prim2SF x) as [s|s| |s m e]; simpl; try reflexivity.
  - discriminate.
  - destruct s; discriminate.
  - rewrite Z.compare_refl.
    change (Pos.compare_cont Eq m m) with (Pos.compare m m).
    rewrite Pos.compare_refl. destruct s; discriminate.
Qed.

Lemma ltb_nan_l x y : is_number x = false -> (x <? y)%float = false.
Proof. intros H%not_number. rewrite ltb_spec, H. reflexivity. Qed.

Lemma ltb_nan_r x y : is_number y = false -> (x <? y)%float = false.
Proof.
  intros H%not_number. rewrite ltb_spec, H. unfold SFltb.
  destruct (Prim2SF x); reflexivity.
Qed.

Lemma ltb_infinity_l y : (infinity <? y)%float = false.
Proof.
  rewrite ltb_spec. change (Prim2SF infinity) with (S754_infinity false).
  unfold SFltb. destruct (Prim2SF y) as [s|s| |s m e]; simpl; try reflexivity.
  destruct s; reflexivity.
Qed.

Lemma ltb_neg_infinity_r x : (x <? neg_infinity)%float = false.
Proof.
  rewrite ltb_spec.
  change (Prim2SF neg_infinity) with (S754_infinity true).
  unfold SFltb. destruct (Prim2SF x) as [s|s| |s m e]; simpl; try reflexivity.
  destruct s; reflexivity.
Qed.

End Float64Order.

(** ** Block: edge values and the shape of the blocked set *)

Module BlockMore.

Import Profile Block.

Lemma inside_nan (o : option Interval) (t : double) :
  is_number t = false -> inside o t = false.
Proof.
  intros Hnan. destruct o as [i|]; simpl; [| reflexivity].
  rewrite (Float64Order.ltb_nan_l t (right i) Hnan). apply andb_false_r.
Qed.

(** X1. A NaN duration is never reported as blocked, whatever the
    block holds. *)
Theorem nan_is_never_blocked (blk : Block) (t : double) :
  is_number t = false -> is_blocked blk t = false.
Proof.
  intros Hnan. unfold is_blocked.
  rewrite (Float64Order.ltb_nan_l t (t_min blk) Hnan).
  now rewrite !inside_nan.
Qed.

Lemma nan_is_never_blocked_witness :
  is_blocked Samples.gapped (0 / 0)%float = false.
Proof. apply nan_is_never_blocked. reflexivity. Defined.

(** X2. A block just built from a profile admits its own minimum
    duration and every duration at or above it; if that minimum is NaN
    it admits every duration. *)
Theorem fresh_block_admits (p : Profile) :
  is_blocked (new p) (t_min (new p)) = false
  /\ (forall t, (t_min (new p) <=? t)%float = true ->
               is_blocked (new p) t = false)
  /\ (is_number (t_min (new p)) = false ->
      forall t, is_blocked (new p) t = false).
Proof.
  assert (Hnew : forall t, is_blocked (new p) t = (t <? t_min (new p))%float).
  { intros t. unfold is_blocked. simpl. now rewrite !orb_false_r. }
  split; [| split].
  - rewrite Hnew. apply Float64.ltb_irrefl.
  - intros t Hle. rewrite Hnew. now apply Float64.leb_not_gt.
  - intros Hnan t. rewrite Hnew. now apply Float64Order.ltb_nan_r.
Qed.

Lemma fresh_block_admits_witness :
  is_blocked (new Samples.slow) (t_min (new Samples.slow)) = false
  /\ is_blocked (new Samples.slow) 7.25 = false
  /\ is_blocked (new (Samples.lasting (0 / 0) SINGLE_EXCURSION UP None)) 1
     = false.
Proof.
  destruct (fresh_block_admits Samples.slow) as (Hmin & Habove & _).
  destruct (fresh_block_admits
              (Samples.lasting (0 / 0) SINGLE_EXCURSION UP None))
    as (_ & _ & Hnan).
  split; [exact Hmin | split].
  - apply Habove. reflexivity.
  - apply Hnan. reflexivity.
Defined.

(** X3. For every block, the duration +infinity is not blocked, and
    -infinity is blocked exactly when it is below [t_min]: no interval
    ever contains an infinite duration. *)
Theorem infinite_durations (blk : Block) :
  is_blocked blk infinity = false
  /\ is_blocked blk neg_infinity = (neg_infinity <? t_min blk)%float
  /\ (forall o, inside o infinity = false /\ inside o neg_infinity = false).
Proof.
  assert (Hin : forall o,
             inside o infinity = false /\ inside o neg_infinity = false).
  { intros [i|]; simpl; [| split; reflexivity]. split.
    - rewrite Float64Order.ltb_infinity_l. apply andb_false_r.
    - now rewrite Float64Order.ltb_neg_infinity_r. }
  split; [| split; [| exact Hin]]; unfold is_blocked.
  - rewrite Float64Order.ltb_infinity_l.
    now rewrite (proj1 (Hin (a blk))), (proj1 (Hin (b blk))).
  - rewrite (proj2 (Hin (a blk))), (proj2 (Hin (b blk))).
    now rewrite !orb_false_r.
Qed.

(** X4. The durations blocked by the minimum form a lower set: whatever
    is at most a duration below [t_min] is blocked as well. *)
Theorem blocked_below_minimum (blk : Block) (t t' : double) :
  (t' <=? t)%float = true -> (t <? t_min blk)%float = true ->
  is_blocked blk t' = true.
Proof.
  intros Hle Hlt. unfold is_blocked.
  now rewrite (Float64Order.leb_ltb_trans t' t (t_min blk) Hle Hlt).
Qed.

Lemma blocked_below_minimum_witness :
  is_blocked (new Samples.slow) 2.5 = true.
Proof.
  apply (blocked_below_minimum (new Samples.slow) 4 2.5); reflexivity.
Defined.

(** X5. What an interval blocks is convex: a duration between two
    durations strictly inside a stored interval is blocked too. *)
Theorem blocked_between (blk : Block) (i : Interval) (t1 t t2 : double) :
  a blk = Some i \/ b blk = Some i ->
  strictly_inside i t1 -> strictly_inside i t2 ->
  (t1 <=? t)%float = true -> (t <=? t2)%float = true ->
  strictly_inside i t /\ is_blocked blk t = true.
Proof.
  intros Hheld [Hl1 _] [_ Hr2] H1 H2.
  assert (Hin : strictly_inside i t).
  { split.
    - exact (Float64Order.ltb_leb_trans _ _ _ Hl1 H1).
    - exact (Float64Order.leb_ltb_trans _ _ _ H2 Hr2). }
  split; [exact Hin |].
  apply BlockFacts.is_blocked_true. right.
  destruct Hheld; [left | right]; exists i; auto.
Qed.

Lemma blocked_between_witness :
  strictly_inside Samples.gap 1.5 /\ is_blocked Samples.gapped 1.5 = true.
Proof.
  apply (blocked_between Samples.gapped Samples.gap 1.25 1.5 1.75);
    [left; reflexivity | split; reflexivity | split; reflexivity
    | reflexivity | reflexivity].
Defined.

(** X6. The order of the two interval slots does not matter, the cached
    profile plays no part, and filling the second slot never unblocks a
    duration. *)
Theorem slots_commute (m : double) (p p' : Profile)
    (ia ib : option Interval) (t : double) :
  is_blocked (Block.mk m p ia ib) t = is_blocked (Block.mk m p ib ia) t
  /\ is_blocked (Block.mk m p' ia ib) t = is_blocked (Block.mk m p ia ib) t
  /\ (is_blocked (Block.mk m p ia None) t = true ->
      is_blocked (Block.mk m p ia ib) t = true).
Proof.
  unfold is_blocked. simpl. split; [| split].
  - rewrite <- !orb_assoc. f_equal. apply orb_comm.
  - reflexivity.
  - rewrite orb_false_r. intros ->. reflexivity.
Qed.

(** X14. A duration that is not blocked is at least [t_min], provided
    both are numbers, and lies strictly inside neither interval. *)
Theorem admitted_is_at_least_minimum (blk : Block) (t : double) :
  is_blocked blk t = false ->
  is_number t = true -> is_number (t_min blk) = true ->
  (t_min blk <=? t)%float = true
  /\ (forall i, a blk = Some i \/ b blk = Some i -> ~ strictly_inside i t).
Proof.
  intros Hfree Ht Hmin. unfold is_blocked in Hfree.
  apply orb_false_elim in Hfree as [Hfree Hb].
  apply orb_false_elim in Hfree as [Hlt Ha].
  split.
  - now apply Float64.not_ltb_leb.
  - intros i [Hi | Hi] Hin.
    + assert (Htrue : inside (a blk) t = true)
        by (apply BlockFacts.inside_true; eauto).
      congruence.
    + assert (Htrue : inside (b blk) t = true)
        by (apply BlockFacts.inside_true; eauto).
      congruence.
Qed.

Lemma admitted_is_at_least_minimum_witness :
  (t_min Samples.gapped <=? 2.5)%float = true
  /\ ~ strictly_inside Samples.gap 2.5.
Proof.
  destruct (admitted_is_at_least_minimum Samples.gapped 2.5
              eq_refl eq_refl eq_refl) as [Hmin Hout].
  split; [exact Hmin | apply Hout; left; reflexivity].
Defined.

End BlockMore.

(** ** Step1: recording profiles and pairing them *)

Module Step1More.

Import Profile Block Step1 ArrayFacts.

(** What a pair of durations, stored in ascending order, blocks. *)
Lemma inside_sorted (dl dr : double) (pl pr : Profile) (t : double) :
  inside (Some (if (dl <? dr)%float
                then mkInterval dl dr pr else mkInterval dr dl pl)) t = true
  <-> ((dl <? t)%float = true /\ (t <? dr)%float = true)
      \/ ((dr <? t)%float = true /\ (t <? dl)%float = true).
Proof.
  destruct (dl <? dr)%float eqn:Hlr; simpl; rewrite andb_true_iff.
  - split; [auto |]. intros [H | [H1 H2]]; [exact H |].
    pose proof (Float64Order.ltb_trans _ _ _ H1 H2) as Hrl.
    rewrite (Float64.ltb_asym _ _ Hlr) in Hrl. discriminate Hrl.
  - split; [auto |]. intros [[H1 H2] | H]; [| exact H].
    rewrite (Float64Order.ltb_trans _ _ _ H1 H2) in Hlr. discriminate Hlr.
Qed.

(** X8. The interval that [add_interval] stores blocks exactly the
    durations strictly between the two profiles' total durations,
    whichever index has the longer one; both total durations themselves
    stay free of it. *)
Theorem interval_blocks_between (s : Step1.Step1) (slot : option Interval)
    (left right : nat) (t_brake : double) (pl pr : Profile) :
  array_get (valid_profiles s) left = Some pl ->
  array_get (valid_profiles s) right = Some pr ->
  exists itv,
    add_interval s slot left right t_brake = Returns (Some itv)
    /\ (forall t,
         inside (Some itv) t = true
         <-> ((total_duration pl t_brake <? t)%float = true
              /\ (t <? total_duration pr t_brake)%float = true)
             \/ ((total_duration pr t_brake <? t)%float = true
                 /\ (t <? total_duration pl t_brake)%float = true))
    /\ inside (Some itv) (total_duration pl t_brake) = false
    /\ inside (Some itv) (total_duration pr t_brake) = false.
Proof.
  intros Hpl Hpr.
  rewrite (Step1Facts.add_interval_result s slot left right t_brake
             pl pr Hpl Hpr).
  eexists. split; [reflexivity |]. split; [| split].
  - intros t. apply inside_sorted.
  - apply not_true_is_false. intros Hin.
    apply inside_sorted in Hin as [[H _] | [_ H]];
      rewrite Float64.ltb_irrefl in H; discriminate H.
  - apply not_true_is_false. intros Hin.
    apply inside_sorted in Hin as [[_ H] | [H _]];
      rewrite Float64.ltb_irrefl in H; discriminate H.
Qed.

Lemma interval_blocks_between_witness :
  exists itv,
    add_interval Samples.two_recorded None 0 1 0.5 = Returns (Some itv)
    /\ inside (Some itv) 4 = true
    /\ inside (Some itv) 3.5 = false
    /\ inside (Some itv) 5.5 = false.
Proof.
  destruct (interval_blocks_between Samples.two_recorded None 0 1 0.5
              Samples.slow Samples.fast eq_refl eq_refl)
    as (itv & Hadd & Hiff & Hl & Hr).
  exists itv. split; [exact Hadd | split; [| split]].
  - apply Hiff. right. split; reflexivity.
  - exact Hr.
  - exact Hl.
Defined.

(** X9. When neither total duration is below the other (the same index
    twice, equal durations, or a NaN), the stored interval is empty: it
    blocks no duration and a block holding only it blocks just the
    durations below [t_min]. *)
Theorem tie_blocks_nothing (s : Step1.Step1) (slot : option Interval)
    (left right : nat) (t_brake : double) (pl pr : Profile) :
  array_get (valid_profiles s) left = Some pl ->
  array_get (valid_profiles s) right = Some pr ->
  (total_duration pl t_brake <? total_duration pr t_brake)%float = false ->
  (total_duration pr t_brake <? total_duration pl t_brake)%float = false ->
  exists itv,
    add_interval s slot left right t_brake = Returns (Some itv)
    /\ (forall t, inside (Some itv) t = false)
    /\ (forall m p t,
         is_blocked (Block.mk m p (Some itv) None) t = (t <? m)%float).
Proof.
  intros Hpl Hpr Hlr Hrl.
  rewrite (Step1Facts.add_interval_result s slot left right t_brake
             pl pr Hpl Hpr).
  eexists. split; [reflexivity |].
  assert (Hempty : forall t,
            inside (Some (if (total_duration pl t_brake
                              <? total_duration pr t_brake)%float
                          then mkInterval (total_duration pl t_brake)
                                          (total_duration pr t_brake) pr
                          else mkInterval (total_duration pr t_brake)
                                          (total_duration pl t_brake) pl)) t
            = false).
  { intros t. apply not_true_is_false. intros Hin.
    apply inside_sorted in Hin as [[H1 H2] | [H1 H2]];
      pose proof (Float64Order.ltb_trans _ _ _ H1 H2) as H; congruence. }
  split; [exact Hempty |].
  intros m p t. unfold is_blocked.
  cbn [Block.a Block.b Block.t_min]. rewrite Hempty. simpl.
  now rewrite !orb_false_r.
Qed.

Lemma tie_blocks_nothing_witness :
  exists itv,
    add_interval Samples.two_recorded None 1 1 0 = Returns (Some itv)
    /\ forall t, inside (Some itv) t = false.
Proof.
  destruct (tie_blocks_nothing Samples.two_recorded None 1 1 0
              Samples.fast Samples.fast eq_refl eq_refl eq_refl eq_refl)
    as (itv & Hadd & Hempty & _).
  exists itv. split; [exact Hadd | exact Hempty].
Defined.

Lemma add_profile_frame (s s' : Step1.Step1) (p : Profile) (jMax : double) :
  add_profile s p jMax = Returns s' ->
  boundary s' = boundary s /\ bounds s' = bounds s
  /\ precalc s' = precalc s /\ block s' = block s.
Proof.
  unfold add_profile. destruct (array_set _ _ _); [| discriminate].
  intros [= <-]. simpl. auto.
Qed.

(** X10. Successive [add_profile] calls that fit into the array record
    the profiles in call order: entry [counter + k] is the [k]-th
    profile field by field, but for its direction, which is the tag of
    its own [jMax]; the entries below and above are left as they were,
    and so are the block and the scalar members. *)
Theorem add_profiles_in_order (calls : list (Profile * double))
    (s : Step1.Step1) :
  valid_profile_counter s + length calls <= 6 ->
  exists s',
    add_profiles s calls = Returns s'
    /\ valid_profile_counter s' = valid_profile_counter s + length calls
    /\ (forall k p jMax,
         calls !! k = Some (p, jMax) ->
         exists q,
           array_get (valid_profiles s') (valid_profile_counter s + k) = Some q
           /\ tagged p (if (0 <? jMax)%float then UP else DOWN) q)
    /\ (forall i,
         i < valid_profile_counter s
         \/ valid_profile_counter s + length calls <= i ->
         array_get (valid_profiles s') i = array_get (valid_profiles s) i)
    /\ block s' = block s
    /\ boundary s' = boundary s /\ bounds s' = bounds s
    /\ precalc s' = precalc s.
Proof.
  revert s. induction calls as [| [p jMax] calls IH]; intros s Hroom;
    simpl in *.
  - exists s. split; [reflexivity |]. split; [lia |].
    split; [intros k q j Hk; rewrite lookup_nil in Hk; discriminate Hk |].
    auto.
  - destruct (Step1Facts.add_profile_returns s p jMax)
      as (s1 & Hadd & Hget & Hother & Hcount); [lia |].
    destruct (add_profile_frame s s1 p jMax Hadd)
      as (Hbd & Hbs & Hpc & Hblk).
    rewrite Hadd.
    destruct (IH s1) as (s' & Hadds & Hcount' & Hlook & Hframe
                         & Hblk' & Hbd' & Hbs' & Hpc'); [lia |].
    exists s'. split; [exact Hadds |]. split; [lia |].
    split; [| split; [| repeat split; congruence]].
    + intros [| k] q j Hk; simpl in Hk.
      * injection Hk as <- <-.
        rewrite Nat.add_0_r, Hframe by lia.
        eexists. split; [exact Hget |]. repeat split.
      * replace (valid_profile_counter s + S k)
          with (valid_profile_counter s1 + k) by lia.
        now apply Hlook.
    + intros i Hi. rewrite Hframe by lia. apply Hother. lia.
Qed.

Lemma tagged_eq (p q : Profile) (d : Direction) :
  tagged p d q ->
  q = Profile.mk (Profile.t p) (Profile.t_sum p) (Profile.pf p)
                 (Profile.vf p) (Profile.af p) (Profile.limits p)
                 (Profile.teeth p) d (Profile.t_brake p)
                 (Profile.t_brakes p) (Profile.j_brakes p).
Proof.
  intros (Ht & Hsum & Hpf & Hvf & Haf & Hlim & Hteeth & Hbrake
          & Hbrakes & Hjerks & Hdir).
  destruct q. simpl in *. now subst.
Qed.

Lemma add_profiles_in_order_witness :
  exists s',
    add_profiles Samples.idle
                 [(Samples.fast, 1%float); (Samples.slow, (-1)%float)]
    = Returns s'
    /\ valid_profile_counter s' = 2
    /\ array_get (valid_profiles s') 0
       = Some (Samples.lasting 3 DOUBLE_EXCURSION UP None)
    /\ array_get (valid_profiles s') 1
       = Some (Samples.lasting 5 SINGLE_EXCURSION DOWN None)
    /\ array_get (valid_profiles s') 2 = Some Samples.rest.
Proof.
  destruct (add_profiles_in_order
              [(Samples.fast, 1%float); (Samples.slow, (-1)%float)]
              Samples.idle)
    as (s' & Hadd & Hcount & Hlook & Hframe & _); [simpl; lia |].
  exists s'. split; [exact Hadd | split; [exact Hcount |]].
  split; [| split].
  - destruct (Hlook 0 Samples.fast 1%float eq_refl) as (q & Hq & Htag).
    simpl in Hq. rewrite Hq, (tagged_eq _ _ _ Htag). reflexivity.
  - destruct (Hlook 1 Samples.slow (-1)%float eq_refl) as (q & Hq & Htag).
    simpl in Hq. rewrite Hq, (tagged_eq _ _ _ Htag). reflexivity.
  - rewrite Hframe by (simpl; lia). reflexivity.
Defined.

(** X11. Recording two profiles and pairing the two new entries gives
    the interval between their total durations: tagging a profile does
    not change its duration, and the stored profile is the longer of
    the two as recorded, with the tag of its own [jMax]. *)
Theorem record_two_then_pair (s : Step1.Step1) (p1 p2 : Profile)
    (j1 j2 : double) (slot : option Interval) (t_brake : double) :
  valid_profile_counter s + 2 <= 6 ->
  exists s1 s2 itv,
    add_profile s p1 j1 = Returns s1
    /\ add_profile s1 p2 j2 = Returns s2
    /\ add_interval s2 slot (valid_profile_counter s)
                     (S (valid_profile_counter s)) t_brake
       = Returns (Some itv)
    /\ itv
       = (if (total_duration p1 t_brake <? total_duration p2 t_brake)%float
          then mkInterval (total_duration p1 t_brake)
                          (total_duration p2 t_brake)
                          (set_direction p2
                             (if (0 <? j2)%float then UP else DOWN))
          else mkInterval (total_duration p2 t_brake)
                          (total_duration p1 t_brake)
                          (set_direction p1
                             (if (0 <? j1)%float then UP else DOWN))).
Proof.
  intros Hroom.
  destruct (Step1Facts.add_profile_returns s p1 j1)
    as (s1 & Hadd1 & Hget1 & _ & Hcount1); [lia |].
  destruct (Step1Facts.add_profile_returns s1 p2 j2)
    as (s2 & Hadd2 & Hget2 & Hother2 & _); [lia |].
  rewrite Hcount1 in Hget2.
  rewrite <- (Hother2 (valid_profile_counter s)) in Hget1 by lia.
  exists s1, s2. eexists.
  split; [exact Hadd1 | split; [exact Hadd2 | split]].
  - apply (Step1Facts.add_interval_result s2 slot _ _ t_brake _ _ Hget1 Hget2).
  - reflexivity.
Qed.

Lemma record_two_then_pair_witness :
  exists s1 s2,
    add_profile Samples.idle Samples.slow 1 = Returns s1
    /\ add_profile s1 Samples.fast (-1) = Returns s2
    /\ add_interval s2 None 0 1 0
       = Returns (Some (mkInterval 3 5 (set_direction Samples.slow UP))).
Proof.
  destruct (record_two_then_pair Samples.idle Samples.slow Samples.fast
              1 (-1) None 0)
    as (s1 & s2 & itv & Hadd1 & Hadd2 & Hpair & Hitv); [simpl; lia |].
  exists s1, s2. split; [exact Hadd1 | split; [exact Hadd2 |]].
  change (add_interval s2 None 0 1 0 = Returns (Some itv)) in Hpair.
  rewrite Hpair, Hitv. reflexivity.
Defined.

(** X12. Pairing the minimal profile with a longer one, with the
    minimal profile's own brake time, gives an interval that starts at
    the [t_min] of the block built from that profile: a block holding it
    admits [t_min] and the longer duration, and blocks exactly what is
    below [t_min] or strictly between the two. *)
Theorem interval_starts_at_minimum (s : Step1.Step1)
    (slot : option Interval) (left right : nat) (pl pr : Profile) :
  let t_brake := default 0%float (Profile.t_brake pl) in
  array_get (valid_profiles s) left = Some pl ->
  array_get (valid_profiles s) right = Some pr ->
  (total_duration pl t_brake <? total_duration pr t_brake)%float = true ->
  exists itv,
    add_interval s slot left right t_brake = Returns (Some itv)
    /\ Block.left itv = t_min (Block.new pl)
    /\ Block.right itv = total_duration pr t_brake
    /\ (let blk := Block.mk (t_min (Block.new pl)) pl (Some itv) None in
        is_blocked blk (t_min blk) = false
        /\ is_blocked blk (Block.right itv) = false
        /\ forall t,
             is_blocked blk t = true
             <-> (t <? t_min blk)%float = true
                 \/ ((t_min blk <? t)%float = true
                     /\ (t <? Block.right itv)%float = true)).
Proof.
  intros t_brake Hpl Hpr Hlt.
  rewrite (Step1Facts.add_interval_result s slot left right t_brake
             pl pr Hpl Hpr), Hlt.
  eexists. split; [reflexivity |]. split; [reflexivity |].
  split; [reflexivity |].
  cbn zeta. unfold is_blocked.
  cbn [Block.a Block.b Block.t_min Block.left Block.right inside].
  fold (total_duration pl t_brake).
  change (t_min (new pl)) with (total_duration pl t_brake).
  split; [| split].
  - now rewrite !Float64.ltb_irrefl.
  - rewrite (Float64.ltb_asym _ _ Hlt), Float64.ltb_irrefl.
    now rewrite andb_false_r.
  - intros t. rewrite orb_false_r, orb_true_iff, andb_true_iff. tauto.
Qed.

Lemma interval_starts_at_minimum_witness :
  exists itv,
    add_interval Samples.two_recorded None 1 0 0 = Returns (Some itv)
    /\ Block.left itv = t_min (Block.new Samples.fast)
    /\ is_blocked (Block.mk 3 Samples.fast (Some itv) None) 3 = false
    /\ is_blocked (Block.mk 3 Samples.fast (Some itv) None) 4 = true.
Proof.
  destruct (interval_starts_at_minimum Samples.two_recorded None 1 0
              Samples.fast Samples.slow eq_refl eq_refl eq_refl)
    as (itv & Hadd & Hleft & Hright & Hmin & _ & Hiff).
  exists itv. split; [exact Hadd | split; [exact Hleft | split]].
  - exact Hmin.
  - apply Hiff. right. rewrite Hright. split; reflexivity.
Defined.

End Step1More.

(** ** RuckigError: what [what()] shows of the message *)

Module ErrorMore.

Lemma tagged_message_inj (m1 m2 : string) :
  (String LF "[ruckig] " ++ m1)%string = (String LF "[ruckig] " ++ m2)%string
  -> m1 = m2.
Proof. simpl. intros H. now injection H. Qed.

(** X13. Through [what()], two errors show the same text exactly when
    their messages agree up to the first NUL byte, so exactly when the
    messages are equal if neither holds a NUL byte; the text always
    starts with the tag and is never empty. *)
Theorem what_determines_message (m1 m2 : string) :
  (what (RuckigError_new m1) = what (RuckigError_new m2)
   <-> c_str m1 = c_str m2)
  /\ (nul_free m1 = true -> nul_free m2 = true ->
      (what (RuckigError_new m1) = what (RuckigError_new m2) <-> m1 = m2))
  /\ String.prefix (String LF "[ruckig] ") (what (RuckigError_new m1)) = true
  /\ what (RuckigError_new m1) <> EmptyString.
Proof.
  assert (Hiff : what (RuckigError_new m1) = what (RuckigError_new m2)
                 <-> c_str m1 = c_str m2).
  { rewrite !ErrorFacts.what_new. split.
    - apply tagged_message_inj.
    - intros ->. reflexivity. }
  split; [exact Hiff | split; [| split]].
  - intros H1 H2. rewrite Hiff.
    now rewrite (ErrorFacts.c_str_nul_free m1 H1),
                (ErrorFacts.c_str_nul_free m2 H2).
  - rewrite ErrorFacts.what_new. simpl.
    repeat (destruct (Ascii.ascii_dec _ _) as [_ | Hne];
            [| now destruct Hne]).
    now destruct (c_str m1).
  - rewrite ErrorFacts.what_new. discriminate.
Qed.

Lemma what_determines_message_witness :
  what (RuckigError_new (String "a" (String NUL "b")))
  = what (RuckigError_new (String "a" (String NUL "c")))
  /\ what (RuckigError_new "ab") <> what (RuckigError_new "ac").
Proof.
  split.
  - destruct (what_determines_message (String "a" (String NUL "b"))
                                      (String "a" (String NUL "c")))
      as (Hcut & _).
    apply Hcut. reflexivity.
  - intros H.
    destruct (what_determines_message "ab" "ac") as (_ & Hfree & _).
    apply (Hfree eq_refl eq_refl) in H. discriminate H.
Defined.

End ErrorMore.
